(** * create_rotating_logo.py: a shallow embedding and its verification

    The script reads a logo, makes sure it is in mode RGBA, builds
    [num_frames] rotated copies of it and saves them as a looping GIF.

    The development has three layers:
    - [PyFloat]: Python's [float] (IEEE 754 binary64) on top of the
      Standard Library's executable specification [SpecFloat], with the
      three operations the script and Pillow's [Image.rotate] use on the
      angle: int/int true division, int * float, and float [%];
    - [PIL]: the part of Pillow's [Image] class the script calls, on image
      values; pixel kernels the library implements in C (colour conversion
      of the less common modes, affine resampling, decoding, GIF encoding)
      are parameters;
    - the script itself, in a state-and-exception monad over a file system,
      an object heap and standard output.

    The GIF writer is modelled as far as the choice of the frames it
    writes goes: a frame that repeats the picture of the frame before it
    is merged into that frame. *)

From Stdlib Require Import ZArith List Bool Lia QArith.
From Stdlib Require Import Floats.SpecFloat.
From stdpp Require Import base gmap strings list.

Local Open Scope Z_scope.

(** ** Python floats *)

Module PyFloat.

Definition prec : Z := 53.
Definition emax : Z := 1024.

Abbreviation float := spec_float.

Definition nan : float := S754_nan.
Definition zero : float := S754_zero false.

(** An integer seen as an exact, unrounded binary number [z * 2^0]. *)
Definition int_as_float (z : Z) : float :=
  match z with
  | Z0 => S754_zero false
  | Zpos p => S754_finite false p 0
  | Zneg p => S754_finite true p 0
  end.

(** [float(z)]: the nearest binary64 value, ties to even.  CPython raises
    OverflowError for an int beyond the binary64 range (from about
    1.8e308), where this function returns an infinity; the only ints the
    script converts are loop indices. *)
Definition of_int (z : Z) : float := binary_normalize prec emax z 0 false.

Definition mul : float -> float -> float := SFmul prec emax.
Definition add : float -> float -> float := SFadd prec emax.
Definition neg : float -> float := SFopp.
Definition eqb : float -> float -> bool := SFeqb.
Definition ltb : float -> float -> bool := SFltb.

Definition is_zero (x : float) : bool :=
  match x with S754_zero _ => true | _ => false end.

Definition is_finite (x : float) : bool :=
  match x with S754_zero _ | S754_finite _ _ _ => true | _ => false end.

Definition sign_bit (x : float) : bool :=
  match x with
  | S754_zero s | S754_infinity s | S754_finite s _ _ => s
  | S754_nan => false
  end.

(** The correctly rounded quotient of two ints, as [int.__truediv__]
    computes it for a non-zero divisor. *)
Definition div_int (a b : Z) : float :=
  SFdiv prec emax (int_as_float a) (int_as_float b).

(** C's [fmod]: the remainder of the truncated quotient, which is always
    representable; it takes the sign of [x]. *)
Definition fmod (x y : float) : float :=
  match x, y with
  | S754_nan, _ | _, S754_nan => S754_nan
  | S754_infinity _, _ => S754_nan
  | _, S754_zero _ => S754_nan
  | S754_zero _, _ => x
  | S754_finite _ _ _, S754_infinity _ => x
  | S754_finite sx mx ex, S754_finite _ my ey =>
      let e := Z.min ex ey in
      let X := Z.shiftl (Zpos mx) (ex - e) in
      let Y := Z.shiftl (Zpos my) (ey - e) in
      binary_normalize prec emax (cond_Zopp sx (X mod Y)) e sx
  end.

(** [vx % wx] for [wx <> 0] (CPython's [float_rem] after its test for a
    zero divisor): the remainder takes the sign of the divisor. *)
Definition rem (vx wx : float) : float :=
  let m := fmod vx wx in
  if is_zero m then S754_zero (sign_bit wx)
  else if xorb (ltb wx zero) (ltb m zero) then add m wx
  else m.

(** The rational a finite float stands for. *)
Definition to_Q (x : float) : option Q :=
  match x with
  | S754_zero _ => Some 0%Q
  | S754_finite s m e =>
      Some (match e with
            | Zneg k => Qmake (cond_Zopp s (Zpos m)) (Pos.shiftl 1 (Npos k))
            | _ => inject_Z (cond_Zopp s (Zpos m) * 2 ^ e)
            end)
  | _ => None
  end.

End PyFloat.

(** ** Pillow images *)

Module PIL.
Import PyFloat.

(** A pixel is the list of its band values (three for RGB, four for RGBA,
    one for L, ...); the raster is the list of the rows, top row first. *)
Definition pixel : Type := list Z.
Definition raster : Type := list (list pixel).

Inductive Resampling := NEAREST | BILINEAR | BICUBIC | LANCZOS | BOX | HAMMING.

Inductive Transpose := ROTATE_90 | ROTATE_180 | ROTATE_270.

(** The attributes of an [Image] that the calls of the script read:
    [mode], [size] = (width, height), the pixels, the palette of a
    palette image and the [info["transparency"]] entry a PNG tRNS chunk
    leaves. *)
Record Image := {
  im_mode : string;
  im_size : Z * Z;
  im_data : raster;
  im_palette : option (list Z);
  im_transparency : option pixel
}.

Definition width (im : Image) : Z := fst (im_size im).
Definition height (im : Image) : Z := snd (im_size im).

(** What [save] hands to the GIF writer with [save_all=True]. *)
Record Animation := {
  anim_frames : list Image;
  anim_duration : Z;
  anim_loop : Z;
  anim_optimize : bool
}.

(** What a GIF file holds: the frames, each with the time it is shown, in
    milliseconds, and the loop count. *)
Record GifFile := {
  gif_frames : list (Image * Z);
  gif_loop : Z
}.

(** The kernels of Pillow that live in its C core and in its format
    plugins.  [core_convert im m] is [im.im.convert(m)] for the mode pairs
    not written out in [convert]; [core_affine im sz a flt] the pixels of
    the affine transform that rotates [im] by [a] degrees into a canvas of
    size [sz] with filter [flt] (for LA and RGBA and a filter other than
    NEAREST, through the premultiplied modes and back);
    [core_expanded_size] the canvas [rotate] computes for [expand=True];
    [gif_normalize optimize im] the palette image the GIF writer makes of
    a frame, and [gif_write optimize g] the bytes of the file. *)
Class PillowCore := {
  decode : list Byte.byte -> option Image;
  core_convert : Image -> string -> Image;
  core_affine : Image -> Z * Z -> float -> Resampling -> raster;
  core_expanded_size : Z * Z -> float -> Z * Z;
  gif_normalize : bool -> Image -> Image;
  gif_write : bool -> GifFile -> list Byte.byte
}.


(** [Image.copy]: a new image with the same contents. *)
Definition copy (im : Image) : Image := im.

(** Alpha given to an opaque pixel when it is promoted: 0 for the colour
    that [info["transparency"]] names, 255 for the others.  The kernel
    compares the low byte of each component of that colour, which for a
    sixteen-bit PNG is wider than a band. *)
Definition low_byte (v : Z) : Z := v mod 256.

Definition promoted_alpha (t : option pixel) (px : pixel) : Z :=
  match t with
  | Some c => if bool_decide (map low_byte c = px) then 0 else 255
  | None => 255
  end.

Definition rgb_to_rgba (t : option pixel) (px : pixel) : pixel :=
  match px with
  | [r; g; b] => [r; g; b; promoted_alpha t px]
  | _ => px
  end.

Definition l_to_rgba (t : option pixel) (px : pixel) : pixel :=
  match px with
  | [l] => [l; l; l; promoted_alpha t px]
  | _ => px
  end.

Definition la_to_rgba (px : pixel) : pixel :=
  match px with
  | [l; a] => [l; l; l; a]
  | _ => px
  end.

(** A band holds 0..255; the 32-bit values of mode I are clipped to it. *)
Definition clip8 (v : Z) : Z := Z.max 0 (Z.min 255 v).

Definition i_to_rgba (t : option pixel) (px : pixel) : pixel :=
  match px with
  | [v] => [clip8 v; clip8 v; clip8 v; promoted_alpha t [clip8 v]]
  | _ => px
  end.

Definition map_pixels (f : pixel -> pixel) (d : raster) : raster :=
  map (map f) d.

(** [Image.convert(mode)].  The same mode gives a copy; RGB, L, LA and I
    are converted to RGBA pixel by pixel; every other pair of modes is the
    core's, whose result has the requested mode and the same size. *)
Definition convert `{PillowCore} (im : Image) (m : string) : Image :=
  if String.eqb m (im_mode im) then copy im
  else if String.eqb m "RGBA" && String.eqb (im_mode im) "RGB" then
    {| im_mode := m; im_size := im_size im;
       im_data := map_pixels (rgb_to_rgba (im_transparency im)) (im_data im);
       im_palette := None; im_transparency := None |}
  else if String.eqb m "RGBA" && String.eqb (im_mode im) "L" then
    {| im_mode := m; im_size := im_size im;
       im_data := map_pixels (l_to_rgba (im_transparency im)) (im_data im);
       im_palette := None; im_transparency := None |}
  else if String.eqb m "RGBA" && String.eqb (im_mode im) "LA" then
    {| im_mode := m; im_size := im_size im;
       im_data := map_pixels la_to_rgba (im_data im);
       im_palette := None; im_transparency := im_transparency im |}
  else if String.eqb m "RGBA" && String.eqb (im_mode im) "I" then
    {| im_mode := m; im_size := im_size im;
       im_data := map_pixels (i_to_rgba (im_transparency im)) (im_data im);
       im_palette := None; im_transparency := None |}
  else
    let c := core_convert im m in
    {| im_mode := m; im_size := im_size im;
       im_data := im_data c;
       im_palette := im_palette c; im_transparency := im_transparency c |}.

(** Column [x] of every row: the rows of the transposed raster. *)
Definition columns (w : Z) (d : raster) : raster :=
  map (fun x => map (fun row => nth x row []) d) (seq 0 (Z.to_nat w)).

(** [Image.transpose(method)] for the three rotations by a multiple of a
    right angle; angles are counter-clockwise. *)
Definition transpose (im : Image) (method : Transpose) : Image :=
  match method with
  | ROTATE_180 =>
      {| im_mode := im_mode im; im_size := im_size im;
         im_data := rev (map (@rev pixel) (im_data im));
         im_palette := im_palette im; im_transparency := im_transparency im |}
  | ROTATE_90 =>
      {| im_mode := im_mode im; im_size := (height im, width im);
         im_data := rev (columns (width im) (im_data im));
         im_palette := im_palette im; im_transparency := im_transparency im |}
  | ROTATE_270 =>
      {| im_mode := im_mode im; im_size := (height im, width im);
         im_data := map (@rev pixel) (columns (width im) (im_data im));
         im_palette := im_palette im; im_transparency := im_transparency im |}
  end.

(** [Image.transform(size, AFFINE, matrix_of(angle), resample)]: a new
    image of the mode of [im] and of the size asked for. *)
Definition transform `{PillowCore} (im : Image) (sz : Z * Z) (a : float)
    (resample : Resampling) : Image :=
  {| im_mode := im_mode im; im_size := sz;
     im_data := core_affine im sz a resample;
     im_palette := im_palette im; im_transparency := im_transparency im |}.

(** [Image.rotate(angle, resample, expand)] with the default centre and
    no translation: the angle is reduced modulo 360, the multiples of a
    right angle take the fast paths ([copy] and [transpose]), every other
    angle the affine transform, into a canvas of the size of [im] unless
    [expand] is set. *)
Definition rotate `{PillowCore} (im : Image) (angle : float)
    (resample : Resampling) (expand : bool) : Image :=
  let angle := rem angle (of_int 360) in
  if eqb angle (of_int 0) then copy im
  else if eqb angle (of_int 180) then transpose im ROTATE_180
  else if (eqb angle (of_int 90) || eqb angle (of_int 270))
          && (expand || (width im =? height im)) then
    transpose im (if eqb angle (of_int 90) then ROTATE_90 else ROTATE_270)
  else
    let sz := if expand then core_expanded_size (im_size im) angle
              else im_size im in
    transform im sz angle resample.

(** The frames [save] writes: the image itself, followed by
    [append_images] when [save_all] is set. *)
Definition saved_frames (self : Image) (save_all : bool)
    (append_images : list Image) : list Image :=
  if save_all then self :: append_images else [self].

(** ** The GIF writer

    [save] with [save_all=True] goes through the frames in order.  Each
    is turned into a palette image; a frame that shows the same picture as
    the last frame kept is not written again: its duration is added to
    that of the frame kept. *)

(** The test of the writer for "the same picture": the pixels are compared
    as they are when the two palettes agree, and as RGBA when they do
    not. *)
Definition same_picture `{PillowCore} (a b : Image) : bool :=
  if bool_decide (im_palette a = im_palette b)
  then bool_decide (im_data a = im_data b)
  else bool_decide (im_data (convert a "RGBA") = im_data (convert b "RGBA")).

(** [kept] is the last frame kept and [shown] its duration so far; [d] is
    the duration of every frame still to come. *)
Fixpoint coalesce_from `{PillowCore} (kept : Image) (shown d : Z)
    (frames : list Image) : list (Image * Z) :=
  match frames with
  | [] => [(kept, shown)]
  | f :: frames' =>
      if same_picture kept f then coalesce_from kept (shown + d) d frames'
      else (kept, shown) :: coalesce_from f d d frames'
  end.

Definition coalesce `{PillowCore} (d : Z) (frames : list Image) : list (Image * Z) :=
  match frames with
  | [] => []
  | f :: frames' => coalesce_from f d d frames'
  end.

(** The file the writer makes of what [save] hands to it. *)
Definition gif_plan `{PillowCore} (a : Animation) : GifFile :=
  {| gif_frames :=
       coalesce (anim_duration a)
                (map (gif_normalize (anim_optimize a)) (anim_frames a));
     gif_loop := anim_loop a |}.

Definition gif_encode `{PillowCore} (a : Animation) : list Byte.byte :=
  gif_write (anim_optimize a) (gif_plan a).
Arguments gif_encode {PillowCore} a : rename.

End PIL.

(** ** The interpreter state and its monad *)

Import PyFloat PIL.

Inductive exn :=
  | FileNotFoundError
  | UnidentifiedImageError
  | ZeroDivisionError
  | OverflowError
  | IndexError
  | PermissionError
  | IsADirectoryError
  | UnicodeEncodeError
  | SystemError.

(** The ways in which opening a path for writing fails. *)
Inductive write_error := NoPermission | IsADirectory | NoDirectory.

Definition exn_of_write_error (e : write_error) : exn :=
  match e with
  | NoPermission => PermissionError
  | IsADirectory => IsADirectoryError
  | NoDirectory => FileNotFoundError
  end.

Inductive result (A : Type) :=
  | Ok (a : A)
  | Raise (e : exn).
Arguments Ok {A} a.
Arguments Raise {A} e.

(** Image objects live in a heap and are named by their address; a Python
    variable holds an address, so two variables can name one object. *)
Definition ref : Type := nat.

(** The files by path, the paths the process may open for writing and the
    error the system reports for the others, the image objects allocated
    so far, the lines printed, and the texts standard output can encode. *)
Record state := {
  st_files : gmap string (list Byte.byte);
  st_writable : string -> bool;
  st_write_error : string -> write_error;
  st_heap : list Image;
  st_stdout : list string;
  st_encodes : string -> bool
}.

Definition M (A : Type) : Type := state -> result A * state.

#[global] Instance M_ret : MRet M := fun A a st => (Ok a, st).

#[global] Instance M_bind : MBind M := fun A B f m st =>
  match m st with
  | (Ok a, st') => f a st'
  | (Raise e, st') => (Raise e, st')
  end.

Definition raise {A : Type} (e : exn) : M A := fun st => (Raise e, st).

(** The state after the file at [path] has been given the contents [b]. *)
Definition with_file (st : state) (path : string) (b : list Byte.byte) : state :=
  {| st_files := <[path := b]> (st_files st); st_writable := st_writable st;
     st_write_error := st_write_error st;
     st_heap := st_heap st; st_stdout := st_stdout st;
     st_encodes := st_encodes st |}.

(** The state after [line] has been printed. *)
Definition with_line (st : state) (line : string) : state :=
  {| st_files := st_files st; st_writable := st_writable st;
     st_write_error := st_write_error st;
     st_heap := st_heap st; st_stdout := st_stdout st ++ [line];
     st_encodes := st_encodes st |}.

(** The state after the images [ims] have been allocated. *)
Definition grow (st : state) (ims : list Image) : state :=
  {| st_files := st_files st; st_writable := st_writable st;
     st_write_error := st_write_error st;
     st_heap := st_heap st ++ ims; st_stdout := st_stdout st;
     st_encodes := st_encodes st |}.

Definition alloc (im : Image) : M ref := fun st =>
  (Ok (length (st_heap st)), grow st [im]).

(** Reading the object behind a reference.  Python has no dangling
    references; the error branch only keeps the function total. *)
Definition deref (r : ref) : M Image := fun st =>
  match st_heap st !! r with
  | Some im => (Ok im, st)
  | None => (Raise SystemError, st)
  end.

Definition read_file (path : string) : M (list Byte.byte) := fun st =>
  match st_files st !! path with
  | Some b => (Ok b, st)
  | None => (Raise FileNotFoundError, st)
  end.

(** Writing creates the file or replaces its contents; when the path
    cannot be opened for writing (no permission, a directory, ...) the
    error of the system is raised. *)
Definition write_file (path : string) (b : list Byte.byte) : M unit := fun st =>
  if st_writable st path then (Ok tt, with_file st path b)
  else (Raise (exn_of_write_error (st_write_error st path)), st).

(** [print(line)]: the line is encoded for standard output first, and
    nothing is printed when that fails. *)
Definition print (line : string) : M unit := fun st =>
  if st_encodes st line then (Ok tt, with_line st line)
  else (Raise UnicodeEncodeError, st).

(** [for x in xs: s = body(x, s)] *)
Fixpoint for_each {A S : Type} (xs : list A) (body : A -> S -> M S) (s : S) : M S :=
  match xs with
  | [] => mret s
  | x :: xs' => s' ← body x s; for_each xs' body s'
  end.

(** [range(n)] *)
Definition range (n : Z) : list Z := seqZ 0 n.

(** [xs[i]] for [0 <= i] *)
Definition list_index {A : Type} (xs : list A) (i : nat) : M A :=
  match xs !! i with
  | Some x => mret x
  | None => raise IndexError
  end.

(** [xs[i:]] for [0 <= i] *)
Definition list_slice_from {A : Type} (xs : list A) (i : nat) : list A := drop i xs.

(** [a / b] on ints *)
Definition int_truediv (a b : Z) : M float :=
  if b =? 0 then raise ZeroDivisionError
  else
    let q := div_int a b in
    if is_finite q then mret q else raise OverflowError.

(** ** The methods of [Image] on objects *)

Section Script.
Context `{PillowCore}.

(** [Image.open].  Pillow reads the header at once and the pixels at the
    first use of the image, on line 9 or 18, where a file cut short raises
    its error; the model decodes the whole file here, and [decode] stands
    for both steps.  Either way the error comes before [save]. *)
Definition Image_open (path : string) : M ref :=
  b ← read_file path;
  match decode b with
  | Some im => alloc im
  | None => raise UnidentifiedImageError
  end.

Definition Image_mode (self : ref) : M string :=
  im ← deref self; mret (im_mode im).

Definition Image_convert (self : ref) (m : string) : M ref :=
  im ← deref self; alloc (convert im m).

Definition Image_rotate (self : ref) (angle : float) (resample : Resampling)
    (expand : bool) : M ref :=
  im ← deref self; alloc (rotate im angle resample expand).

Definition deref_all (rs : list ref) : M (list Image) :=
  for_each rs (fun r ims => im ← deref r; mret (ims ++ [im])) [].

Definition Image_save (self : ref) (fp : string) (save_all : bool)
    (append_images : list ref) (duration loop : Z) (optimize : bool) : M unit :=
  im ← deref self;
  ims ← deref_all append_images;
  write_file fp
    (gif_encode {| anim_frames := saved_frames im save_all ims;
                   anim_duration := duration;
                   anim_loop := loop;
                   anim_optimize := optimize |}).

(** ** The script *)

Definition input_path : string :=
  "/data/users/liuzhou/online/OpenPrism/static/logo.png".

Definition output_path : string :=
  "/data/users/liuzhou/online/OpenPrism/static/logo-rotating.gif".

Definition num_frames : Z := 36.

(** line 5 *)
Definition load : M ref := Image_open input_path.

(** lines 8-9 *)
Definition normalize (logo : ref) : M ref :=
  m ← Image_mode logo;
  if negb (String.eqb m "RGBA") then Image_convert logo "RGBA"
  else mret logo.

(** line 16 *)
Definition angle (i num_frames : Z) : M float :=
  step ← int_truediv 360 num_frames;
  mret (mul (of_int i) step).

(** lines 16-19, the body of the loop *)
Definition append_rotated (logo : ref) (num_frames : Z) (i : Z)
    (frames : list ref) : M (list ref) :=
  a ← angle i num_frames;
  rotated ← Image_rotate logo (neg a) BICUBIC false;
  mret (frames ++ [rotated]).

(** lines 12-19 *)
Definition generate_frames (logo : ref) (num_frames : Z) : M (list ref) :=
  for_each (range num_frames) (append_rotated logo num_frames) [].

(** lines 22-30 *)
Definition encode (frames : list ref) : M unit :=
  first ← list_index frames 0;
  Image_save first output_path true (list_slice_from frames 1) 50 0 true.

Definition message : string := "旋转动画已创建: " +:+ output_path.

(** The whole script for a frame count [n]. *)
Definition animate (n : Z) : M unit :=
  logo ← load;
  logo ← normalize logo;
  frames ← generate_frames logo n;
  encode frames;;
  print message.

Definition main : M unit := animate num_frames.

(** ** What the script computes, on image values *)

Definition normalized (im : Image) : Image :=
  if negb (String.eqb (im_mode im) "RGBA") then convert im "RGBA" else im.

Definition frame_angle (i n : Z) : float := mul (of_int i) (div_int 360 n).

Definition frame (logo : Image) (n i : Z) : Image :=
  rotate logo (neg (frame_angle i n)) BICUBIC false.

Definition animation (logo : Image) (n : Z) : Animation :=
  {| anim_frames := map (frame logo n) (range n);
     anim_duration := 50; anim_loop := 0; anim_optimize := true |}.

(** The images a run allocates: the decoded logo, its RGBA conversion
    when one is made, and the frames. *)
Definition allocated (im : Image) (n : Z) : list Image :=
  [im] ++ (if negb (String.eqb (im_mode im) "RGBA") then [convert im "RGBA"] else [])
       ++ map (frame (normalized im) n) (range n).

(** The value of the angle of frame [i] out of [n] is the rational
    [i * 360 / n], and the value passed to [rotate] is its opposite. *)
Definition angle_exactb (n i : Z) : bool :=
  match to_Q (frame_angle i n), to_Q (neg (frame_angle i n)) with
  | Some q, Some q' =>
      Qeq_bool q (inject_Z i * 360 / inject_Z n) &&
      Qeq_bool q' (- (inject_Z i * 360 / inject_Z n))
  | _, _ => false
  end.

Definition angle_exact (n i : Z) : Prop :=
  exists q q', to_Q (frame_angle i n) = Some q /\
    to_Q (neg (frame_angle i n)) = Some q' /\
    (q == inject_Z i * 360 / inject_Z n)%Q /\
    (q' == - (inject_Z i * 360 / inject_Z n))%Q.

(** ** Frame conditions *)

(** [st'] differs from [st] at most in the file at [output_path], in
    image objects allocated after those of [st], and in lines printed. *)
Definition extends (st st' : state) : Prop :=
  (forall p, p <> output_path -> st_files st' !! p = st_files st !! p) /\
  (exists ims, st_heap st' = st_heap st ++ ims).

Definition preserving {A : Type} (m : M A) : Prop :=
  forall st, extends st (snd (m st)).

End Script.

(** ** The angle [rotate] works with

    [rotate] reduces the angle it is given modulo 360 before it chooses
    its path; [reduced_angle i n] is that number for frame [i] out of
    [n]. *)

Definition reduced_angle (i n : Z) : float :=
  rem (neg (frame_angle i n)) (of_int 360).

#[global] Instance float_eq_dec : EqDecision float.
Proof. solve_decision. Defined.

(** For a frame count that is even, the frame in the middle is turned by
    180; for one that is a multiple of four, the frames a quarter and three
    quarters of the way are turned by 270 and by 90. *)
Definition half_turn_exactb (n : Z) : bool :=
  bool_decide (reduced_angle (n / 2) n = of_int 180).

Definition quarter_turns_exactb (n : Z) : bool :=
  bool_decide (reduced_angle (n / 4) n = of_int 270) &&
  bool_decide (reduced_angle (3 * (n / 4)) n = of_int 90).

(** ** Pixels and written frames *)






(** ** A small instance

    A 2x2 RGB logo with one transparent colour, a logo of a single pixel,
    a core whose kernels leave the pixels alone, and a file system that
    holds a logo.  The GIF writer of the instance numbers the files (they
    are countable) and writes the number in binary, one digit a byte, so
    that a reader can get the file back. *)

Definition sample_image : Image :=
  {| im_mode := "RGB"; im_size := (2, 2);
     im_data := [[[255; 0; 0]; [0; 255; 0]]; [[0; 0; 255]; [9; 9; 9]]];
     im_palette := None; im_transparency := Some [9; 9; 9] |}.

Definition pixel_image : Image :=
  {| im_mode := "RGBA"; im_size := (1, 1);
     im_data := [[[10; 20; 30; 255]]];
     im_palette := None; im_transparency := None |}.


#[global] Instance Image_eq_dec : EqDecision Image.
Proof. solve_decision. Defined.

#[global] Instance GifFile_eq_dec : EqDecision GifFile.
Proof. solve_decision. Defined.

Definition Image_fields (im : Image) :=
  (im_mode im, im_size im, im_data im, im_palette im, im_transparency im).

Definition Image_of_fields
    (t : string * (Z * Z) * raster * option (list Z) * option pixel) : Image :=
  let '(m, sz, d, p, tr) := t in
  {| im_mode := m; im_size := sz; im_data := d;
     im_palette := p; im_transparency := tr |}.

#[global] Instance Image_countable : Countable Image.
Proof. apply (inj_countable' Image_fields Image_of_fields). by intros []. Defined.

Definition GifFile_fields (g : GifFile) := (gif_frames g, gif_loop g).

Definition GifFile_of_fields (t : list (Image * Z) * Z) : GifFile :=
  {| gif_frames := fst t; gif_loop := snd t |}.

#[global] Instance GifFile_countable : Countable GifFile.
Proof. apply (inj_countable' GifFile_fields GifFile_of_fields). by intros []. Defined.

Fixpoint bytes_of_pos (p : positive) : list Byte.byte :=
  match p with
  | xH => []
  | xO p' => Byte.x00 :: bytes_of_pos p'
  | xI p' => Byte.x01 :: bytes_of_pos p'
  end.



Definition sample_core : PillowCore :=
  {| decode := fun b =>
       match b with
       | [] => None
       | [Byte.x01] => Some pixel_image
       | _ => Some sample_image
       end;
     core_convert := fun im _ => im;
     core_affine := fun im _ _ _ => im_data im;
     core_expanded_size := fun sz _ => sz;
     gif_normalize := fun _ im => im;
     gif_write := fun optimize g => bytes_of_pos (countable.encode (optimize, g)) |}.




Definition sample_state : state :=
  {| st_files := {[ input_path := [Byte.x89] ]};
     st_writable := fun _ => true;
     st_write_error := fun _ => NoPermission;
     st_heap := []; st_stdout := [];
     st_encodes := fun _ => true |}.

(** The same with an unreadable logo, and with no logo at all. *)
Definition corrupt_state : state :=
  {| st_files := {[ input_path := [] ]};
     st_writable := fun _ => true;
     st_write_error := fun _ => NoPermission;
     st_heap := []; st_stdout := [];
     st_encodes := fun _ => true |}.

Definition empty_state : state :=
  {| st_files := ∅; st_writable := fun _ => true;
     st_write_error := fun _ => NoPermission;
     st_heap := []; st_stdout := [];
     st_encodes := fun _ => true |}.


Definition ascii_state : state :=
  {| st_files := {[ input_path := [Byte.x89] ]};
     st_writable := fun _ => true;
     st_write_error := fun _ => NoPermission;
     st_heap := []; st_stdout := [];
     st_encodes := fun _ => false |}.

(** A heap that already holds the logo. *)
Definition loaded_state : state := grow sample_state [sample_image].

Definition rgba_image : Image := convert (H:=sample_core) sample_image "RGBA".

Definition rgba_state : state := grow sample_state [rgba_image].


(** * Facts *)

(** ** Rounding never overflows on the quotient [360 / n] *)

Module PyFloatFacts.
Import PyFloat.

Lemma digits2_pos_size p : digits2_pos p = Pos.size p.
Proof. induction p; simpl; congruence. Qed.

Lemma Zdigits2_lt_pow2 m : 0 <= m -> m < 2 ^ Zdigits2 m.
Proof.
  intros Hm. destruct m as [|p|p]; [reflexivity| |lia].
  simpl. rewrite digits2_pos_size.
  pose proof (Pos.size_gt p) as H.
  apply Pos2Z.pos_lt_pos in H. rewrite Pos2Z.inj_pow in H. exact H.
Qed.

Lemma Zdigits2_le m k : 0 <= k -> 0 <= m < 2 ^ k -> Zdigits2 m <= k.
Proof.
  intros Hk [Hm Hlt]. destruct m as [|p|p]; [simpl; lia| |lia].
  simpl. rewrite digits2_pos_size.
  pose proof (Pos.size_le p) as H.
  apply Pos2Z.pos_le_pos in H. rewrite Pos2Z.inj_pow in H.
  destruct (Z_lt_le_dec k (Z.pos (Pos.size p))) as [Hlt'|]; [|lia].
  exfalso.
  assert (2 ^ (k + 1) <= 2 ^ Z.pos (Pos.size p)). { apply Z.pow_le_mono_r; [lia|]. clear -Hlt'. lia. }
  rewrite Z.pow_add_r in H0 by lia. change (Z.pos p~0) with (2 * Z.pos p) in H.
  change (2 ^ 1) with 2 in H0.
  clear Hlt'. revert H H0 Hlt. generalize (2 ^ Z.pos (Pos.size p)) (2 ^ k). intros; lia.
Qed.

Lemma Zdigits2_nonneg m : 0 <= Zdigits2 m.
Proof. destruct m; simpl; lia. Qed.

Lemma shr_1_m mrs : 0 <= shr_m mrs -> shr_m (shr_1 mrs) = shr_m mrs / 2.
Proof.
  destruct mrs as [m r s]. simpl. intros Hm.
  destruct m as [|[p|p|]|p]; simpl; try reflexivity; try lia.
  - apply Z.div_unique with 1; lia.
  - apply Z.div_unique with 0; lia.
Qed.

Lemma iter_pos_shr_1_m p : forall mrs, 0 <= shr_m mrs ->
  shr_m (SpecFloat.iter_pos shr_1 p mrs) = shr_m mrs / 2 ^ Zpos p.
Proof.
  assert (Hstep : forall mrs, 0 <= shr_m mrs -> 0 <= shr_m (shr_1 mrs)).
  { intros mrs H. rewrite shr_1_m by exact H. apply Z.div_pos; lia. }
  induction p as [p IH|p IH|]; intros mrs Hm; simpl SpecFloat.iter_pos.
  - rewrite IH, IH, shr_1_m; auto.
    + rewrite !Z.div_div by lia. f_equal.
      rewrite Pos2Z.inj_xI, Z.pow_add_r, Z.pow_mul_r, Z.pow_2_r by lia.
      rewrite <- Z.pow_mul_l. change (2 * 2) with (2 ^ 2). rewrite <- Z.pow_mul_r by lia.
      rewrite Z.pow_mul_r by lia. lia.
    + rewrite IH by auto. apply Z.div_pos; [auto|lia].
  - rewrite IH, IH; auto.
    + rewrite Z.div_div by lia. f_equal.
      rewrite Pos2Z.inj_xO. rewrite <- Z.pow_add_r by lia. f_equal. lia.
    + rewrite IH by auto. apply Z.div_pos; [auto|lia].
  - rewrite shr_1_m by auto. reflexivity.
Qed.

Lemma shr_spec mrs e n : 0 <= shr_m mrs ->
  shr_m (fst (shr mrs e n)) = shr_m mrs / 2 ^ Z.max n 0 /\
  snd (shr mrs e n) = e + Z.max n 0.
Proof.
  intros Hm. destruct n as [|p|p]; simpl.
  - rewrite Z.div_1_r. split; [reflexivity|lia].
  - rewrite iter_pos_shr_1_m by exact Hm. split; reflexivity.
  - rewrite Z.div_1_r. split; [reflexivity|lia].
Qed.

Lemma shr_record_of_loc_m m l : shr_m (shr_record_of_loc m l) = m.
Proof. destruct l as [|[]]; reflexivity. Qed.

Lemma round_nearest_even_bounds m l :
  m <= round_nearest_even m l <= m + 1.
Proof. destruct l as [|[]]; simpl; try destruct (Z.even m); lia. Qed.

Lemma shifted_digits m k : 0 <= m -> 0 <= k ->
  Zdigits2 (m / 2 ^ k) + k <= Z.max (Zdigits2 m) k.
Proof.
  intros Hm Hk. pose proof (Zdigits2_lt_pow2 m Hm) as Hlt.
  pose proof (Zdigits2_nonneg m) as Hd.
  destruct (Z_le_gt_dec k (Zdigits2 m)) as [Hle|Hgt].
  - assert (Zdigits2 (m / 2 ^ k) <= Zdigits2 m - k); [|lia].
    apply Zdigits2_le; [lia|]. split; [apply Z.div_pos; lia|].
    apply Z.div_lt_upper_bound; [lia|].
    rewrite <- Z.pow_add_r by lia. replace (k + (Zdigits2 m - k)) with (Zdigits2 m) by lia.
    exact Hlt.
  - rewrite Z.div_small; [simpl; lia|]. split; [lia|].
    eapply Z.lt_le_trans; [exact Hlt|]. apply Z.pow_le_mono_r; lia.
Qed.

Lemma succ_digits m : 0 <= m -> Zdigits2 (m + 1) <= Zdigits2 m + 1.
Proof.
  intros Hm. pose proof (Zdigits2_lt_pow2 m Hm) as Hlt.
  pose proof (Zdigits2_nonneg m) as Hd.
  apply Zdigits2_le; [lia|]. split; [lia|].
  rewrite Z.pow_add_r by lia. change (2 ^ 1) with 2.
  revert Hlt. generalize (2 ^ Zdigits2 m). intros; lia.
Qed.

Lemma Zdigits2_mono a b : 0 <= a <= b -> Zdigits2 a <= Zdigits2 b.
Proof.
  intros [Ha Hab]. apply Zdigits2_le; [apply Zdigits2_nonneg|].
  split; [exact Ha|]. eapply Z.le_lt_trans; [exact Hab|].
  apply Zdigits2_lt_pow2. lia.
Qed.

Lemma binary_round_aux_finite s m e l :
  0 <= m -> e <= emax - prec -> Zdigits2 m + e <= emax - 1 ->
  is_finite (binary_round_aux prec emax s m e l) = true /\
  sign_bit (binary_round_aux prec emax s m e l) = s.
Proof.
  intros Hm He Hd. unfold binary_round_aux, shr_fexp.
  set (n1 := fexp prec emax (Zdigits2 m + e) - e).
  pose proof (shr_spec (shr_record_of_loc m l) e n1) as H1.
  rewrite shr_record_of_loc_m in H1. specialize (H1 Hm).
  destruct (shr (shr_record_of_loc m l) e n1) as [mrs1 e1]. simpl in H1.
  destruct H1 as [Hm1 He1].
  set (m1 := round_nearest_even (shr_m mrs1) (loc_of_shr_record mrs1)).
  pose proof (round_nearest_even_bounds (shr_m mrs1) (loc_of_shr_record mrs1)) as Hr.
  fold m1 in Hr.
  assert (Hq : 0 <= shr_m mrs1) by (rewrite Hm1; apply Z.div_pos; lia).
  assert (Hm1' : 0 <= m1) by lia.
  set (n2 := fexp prec emax (Zdigits2 m1 + e1) - e1).
  pose proof (shr_spec (shr_record_of_loc m1 loc_Exact) e1 n2) as H2.
  rewrite shr_record_of_loc_m in H2. specialize (H2 Hm1').
  destruct (shr (shr_record_of_loc m1 loc_Exact) e1 n2) as [mrs2 e2]. simpl in H2.
  destruct H2 as [Hm2 He2].
  assert (Hq2 : 0 <= shr_m mrs2) by (rewrite Hm2; apply Z.div_pos; lia).
  assert (Hdig : Zdigits2 m1 + e1 <= emax).
  { pose proof (shifted_digits m (Z.max n1 0) Hm ltac:(lia)) as Hs.
    rewrite <- Hm1 in Hs.
    pose proof (succ_digits (shr_m mrs1) Hq) as Hsu.
    pose proof (Zdigits2_mono m1 (shr_m mrs1 + 1) ltac:(lia)) as Hmo.
    pose proof (Zdigits2_nonneg m) as Hdn.
    unfold n1, fexp, SpecFloat.emin, emax, prec in *. lia. }
  assert (He2' : e2 <= emax - prec).
  { unfold n2, n1, fexp, SpecFloat.emin, emax, prec in *. lia. }
  destruct (shr_m mrs2) as [|p|p]; [split; reflexivity| |lia].
  apply Z.leb_le in He2'. rewrite He2'. split; reflexivity.
Qed.

Lemma div_int_finite (a b : Z) : 0 <= a -> a < 2 ^ (emax - 1) -> 1 <= b ->
  is_finite (div_int a b) = true /\ sign_bit (div_int a b) = false.
Proof.
  intros Ha Hlt Hb. unfold div_int.
  destruct b as [|q|q]; try lia. destruct a as [|p|p]; try lia.
  { split; reflexivity. }
  cbn [int_as_float SFdiv xorb]. unfold SFdiv_core_binary.
  set (d1 := Zdigits2 (Z.pos p)). set (d2 := Zdigits2 (Z.pos q)).
  set (e' := Z.min (fexp prec emax (d1 + 0 - (d2 + 0))) (0 - 0)).
  set (m' := match 0 - 0 - e' with 0 => Z.pos p | Z.pos _ => Z.shiftl (Z.pos p) (0 - 0 - e') | Z.neg _ => 0 end).
  assert (He' : e' <= 0) by (unfold e'; lia).
  assert (Hm' : m' = Z.pos p * 2 ^ (- e')).
  { unfold m'. replace (0 - 0 - e') with (- e') by lia.
    destruct (- e') as [|k|k] eqn:E; [lia| |lia].
    rewrite Z.shiftl_mul_pow2 by lia. reflexivity. }
  clearbody m'. pose proof (Z.div_eucl_eq m' (Z.pos q) ltac:(lia)) as Heq.
  pose proof (Z.mod_pos_bound m' (Z.pos q) ltac:(lia)) as Hmod.
  unfold Z.modulo in Hmod.
  destruct (Z.div_eucl m' (Z.pos q)) as [qq r].
  assert (Hqq : 0 <= qq <= m').
  { assert (0 <= m') by (rewrite Hm'; apply Z.mul_nonneg_nonneg; [lia|apply Z.pow_nonneg; lia]).
    split; nia. }
  apply binary_round_aux_finite; [lia|unfold emax, prec in *; lia|].
  pose proof (Zdigits2_nonneg (Z.pos p)) as Hd1. fold d1 in Hd1.
  assert (Hd1' : d1 <= emax - 1).
  { apply Zdigits2_le; [unfold emax; lia|lia]. }
  assert (Zdigits2 qq <= d1 - e'); [|lia].
  apply Zdigits2_le; [lia|].
  split; [lia|]. eapply Z.le_lt_trans; [apply Hqq|]. rewrite Hm'.
  replace (d1 - e') with (d1 + - e') by lia. rewrite Z.pow_add_r by lia.
  apply Z.mul_lt_mono_pos_r; [apply Z.pow_pos_nonneg; lia|].
  apply Zdigits2_lt_pow2. lia.
Qed.

Lemma mul_zero_finite x :
  is_finite x = true -> is_zero (mul (of_int 0) x) = true.
Proof. destruct x; simpl; intros; try discriminate; reflexivity. Qed.

Lemma rem_zero x y : is_zero x = true -> is_finite y = true -> is_zero y = false ->
  rem (neg x) y = S754_zero (sign_bit y).
Proof. destruct x, y; simpl; intros; try discriminate; reflexivity. Qed.

End PyFloatFacts.

(** ** Running the operations *)

Section Runs.
Context `{PillowCore}.

Lemma grow_nil st : grow st [] = st.
Proof. destruct st. unfold grow. simpl. by rewrite app_nil_r. Qed.

Lemma grow_grow st l1 l2 : grow (grow st l1) l2 = grow st (l1 ++ l2).
Proof. unfold grow. simpl. by rewrite app_assoc. Qed.

Lemma bind_ok {A B} (m : M A) (f : A -> M B) st a st' :
  m st = (Ok a, st') -> (m ≫= f) st = f a st'.
Proof. intros E. unfold mbind, M_bind. by rewrite E. Qed.

Lemma bind_raise {A B} (m : M A) (f : A -> M B) st e st' :
  m st = (Raise e, st') -> (m ≫= f) st = (Raise e, st').
Proof. intros E. unfold mbind, M_bind. by rewrite E. Qed.

Lemma deref_ok st r im : st_heap st !! r = Some im -> deref r st = (Ok im, st).
Proof. intros E. unfold deref. by rewrite E. Qed.

Lemma alloc_ok st im : alloc im st = (Ok (length (st_heap st)), grow st [im]).
Proof. reflexivity. Qed.

Lemma lookup_grow st ims r im :
  st_heap st !! r = Some im -> st_heap (grow st ims) !! r = Some im.
Proof. intros E. simpl. by apply lookup_app_l_Some. Qed.

Lemma int_truediv_360 n st : 1 <= n ->
  int_truediv 360 n st = (Ok (div_int 360 n), st).
Proof.
  intros Hn. unfold int_truediv.
  destruct (Z.eqb_spec n 0) as [->|_]; [lia|].
  destruct (PyFloatFacts.div_int_finite 360 n) as [Hfin _]; [lia|reflexivity|lia|].
  by rewrite Hfin.
Qed.

Lemma angle_ok i n st : 1 <= n -> angle i n st = (Ok (frame_angle i n), st).
Proof.
  intros Hn. unfold angle. by rewrite (bind_ok _ _ _ _ _ (int_truediv_360 n st Hn)).
Qed.

Lemma Image_rotate_ok st logo im a flt ex :
  st_heap st !! logo = Some im ->
  Image_rotate logo a flt ex st
  = (Ok (length (st_heap st)), grow st [rotate im a flt ex]).
Proof.
  intros E. unfold Image_rotate. by rewrite (bind_ok _ _ _ _ _ (deref_ok _ _ _ E)).
Qed.

Lemma append_rotated_ok st logo im n i frames :
  1 <= n -> st_heap st !! logo = Some im ->
  append_rotated logo n i frames st
  = (Ok (frames ++ [length (st_heap st)]), grow st [frame im n i]).
Proof.
  intros Hn E. unfold append_rotated.
  rewrite (bind_ok _ _ _ _ _ (angle_ok i n st Hn)).
  by rewrite (bind_ok _ _ _ _ _ (Image_rotate_ok _ _ _ _ _ _ E)).
Qed.

(** The loop, by induction on the indices still to visit. *)
Lemma for_each_append_rotated logo im n xs : forall frames st,
  (xs <> [] -> 1 <= n) -> st_heap st !! logo = Some im ->
  for_each xs (append_rotated logo n) frames st
  = (Ok (frames ++ seq (length (st_heap st)) (length xs)),
     grow st (map (frame im n) xs)).
Proof.
  induction xs as [|x xs IH]; intros frames st Hn E; simpl.
  - by rewrite app_nil_r, grow_nil.
  - assert (1 <= n) as Hn' by (by apply Hn).
    rewrite (bind_ok _ _ _ _ _ (append_rotated_ok st logo im n x frames Hn' E)).
    rewrite IH; [|done|by apply lookup_grow].
    rewrite grow_grow. simpl. rewrite <- app_assoc. simpl.
    by rewrite last_length.
Qed.

Lemma generate_frames_ok logo im n st :
  st_heap st !! logo = Some im ->
  generate_frames logo n st
  = (Ok (seq (length (st_heap st)) (Z.to_nat n)),
     grow st (map (frame im n) (range n))).
Proof.
  intros E. unfold generate_frames.
  rewrite (for_each_append_rotated logo im n); [|..|done].
  - unfold range. by rewrite length_seqZ.
  - intros Hne. destruct (Z_le_gt_dec n 0) as [Hle|]; [|lia].
    unfold range in Hne. by rewrite seqZ_nil in Hne.
Qed.

Lemma length_range n : length (range n) = Z.to_nat n.
Proof. apply length_seqZ. Qed.

Lemma lookup_range n (i : nat) :
  Z.of_nat i < n -> range n !! i = Some (Z.of_nat i).
Proof. intros Hi. unfold range. by rewrite lookup_seqZ_lt. Qed.

(** The [i]-th reference of the loop names the [i]-th frame. *)
Lemma lookup_generated st im n (i : nat) :
  Z.of_nat i < n ->
  seq (length (st_heap st)) (Z.to_nat n) !! i = Some (length (st_heap st) + i)%nat /\
  st_heap (grow st (map (frame im n) (range n))) !! (length (st_heap st) + i)%nat
  = Some (frame im n (Z.of_nat i)).
Proof.
  intros Hi. split.
  - apply lookup_seq_lt. lia.
  - simpl. rewrite lookup_app_r by lia.
    replace (length (st_heap st) + i - length (st_heap st))%nat with i by lia.
    by rewrite list_lookup_fmap, lookup_range.
Qed.

Lemma normalize_ok st logo im :
  st_heap st !! logo = Some im ->
  normalize logo st
  = if negb (String.eqb (im_mode im) "RGBA")
    then (Ok (length (st_heap st)), grow st [convert im "RGBA"])
    else (Ok logo, st).
Proof.
  intros E. unfold normalize, Image_mode.
  rewrite (bind_ok _ _ _ (im_mode im) st); [|by rewrite (bind_ok _ _ _ _ _ (deref_ok _ _ _ E))].
  destruct (negb _); [|done].
  unfold Image_convert. by rewrite (bind_ok _ _ _ _ _ (deref_ok _ _ _ E)).
Qed.

(** After [normalize] the reference it returns names [normalized im]. *)
Lemma normalize_normalized st logo im :
  st_heap st !! logo = Some im ->
  exists logo' st', normalize logo st = (Ok logo', st') /\
    st_heap st' !! logo' = Some (normalized im) /\
    st' = grow st (if negb (String.eqb (im_mode im) "RGBA")
                   then [convert im "RGBA"] else []).
Proof.
  intros E. rewrite (normalize_ok _ _ _ E). unfold normalized.
  destruct (negb _).
  - eexists _, _. split; [done|]. split; [|done].
    simpl. by apply list_lookup_middle.
  - eexists _, _. split; [done|]. by rewrite grow_nil.
Qed.

Lemma deref_all_loop st : forall rs ims acc,
  Forall2 (fun r im => st_heap st !! r = Some im) rs ims ->
  for_each rs (fun r ims => im ← deref r; mret (ims ++ [im])) acc st
  = (Ok (acc ++ ims), st).
Proof.
  induction rs as [|r rs IH]; intros ims acc HF; inversion HF; subst; simpl.
  - by rewrite app_nil_r.
  - rewrite (bind_ok _ _ _ (acc ++ [y]) st).
    + rewrite (IH l') by done. by rewrite <- app_assoc.
    + by rewrite (bind_ok _ _ _ _ _ (deref_ok _ _ _ H2)).
Qed.

Lemma deref_all_ok st rs ims :
  Forall2 (fun r im => st_heap st !! r = Some im) rs ims ->
  deref_all rs st = (Ok ims, st).
Proof. intros HF. unfold deref_all. by rewrite (deref_all_loop st rs ims []). Qed.

End Runs.

(** ** Saving and the whole run *)

Section WholeRun.
Context `{PillowCore}.

(** References handed out in a row name the images allocated in a row. *)
Lemma Forall2_allocated (ims : list Image) : forall heap,
  Forall2 (fun r im => (heap ++ ims) !! r = Some im)
          (seq (length heap) (length ims)) ims.
Proof.
  induction ims as [|im ims IH]; intros heap; simpl; constructor.
  - by apply list_lookup_middle.
  - specialize (IH (heap ++ [im])).
    rewrite last_length, <- app_assoc in IH. exact IH.
Qed.

Lemma Image_save_ok st self im rs ims fp d l o :
  st_heap st !! self = Some im ->
  Forall2 (fun r im => st_heap st !! r = Some im) rs ims ->
  st_writable st fp = true ->
  Image_save self fp true rs d l o st
  = (Ok tt, with_file st fp
       (gif_encode {| anim_frames := im :: ims; anim_duration := d;
                      anim_loop := l; anim_optimize := o |})).
Proof.
  intros E HF W. unfold Image_save.
  rewrite (bind_ok _ _ _ _ _ (deref_ok _ _ _ E)).
  rewrite (bind_ok _ _ _ _ _ (deref_all_ok _ _ _ HF)).
  unfold write_file. by rewrite W.
Qed.

Lemma Image_save_denied st self im rs ims fp d l o :
  st_heap st !! self = Some im ->
  Forall2 (fun r im => st_heap st !! r = Some im) rs ims ->
  st_writable st fp = false ->
  Image_save self fp true rs d l o st
  = (Raise (exn_of_write_error (st_write_error st fp)), st).
Proof.
  intros E HF W. unfold Image_save.
  rewrite (bind_ok _ _ _ _ _ (deref_ok _ _ _ E)).
  rewrite (bind_ok _ _ _ _ _ (deref_all_ok _ _ _ HF)).
  unfold write_file. by rewrite W.
Qed.

(** [encode] on the references the loop returns. *)
Lemma encode_generated st (ims : list Image) :
  ims <> [] ->
  encode (seq (length (st_heap st)) (length ims)) (grow st ims)
  = if st_writable st output_path
    then (Ok tt, with_file (grow st ims) output_path
            (gif_encode {| anim_frames := ims; anim_duration := 50;
                           anim_loop := 0; anim_optimize := true |}))
    else (Raise (exn_of_write_error (st_write_error st output_path)), grow st ims).
Proof.
  intros Hne. pose proof (Forall2_allocated ims (st_heap st)) as HF.
  destruct ims as [|im ims]; [done|]. simpl in HF. inversion HF as [|? ? ? ? E HF']; subst.
  unfold encode. simpl seq. unfold list_index. simpl lookup.
  rewrite (bind_ok _ _ _ (length (st_heap st)) (grow st (im :: ims))) by done.
  unfold list_slice_from. simpl drop.
  destruct (st_writable st output_path) eqn:W.
  - by rewrite (Image_save_ok _ _ im _ ims).
  - by rewrite (Image_save_denied _ _ im _ ims).
Qed.

Lemma encode_empty st : encode [] st = (Raise IndexError, st).
Proof. reflexivity. Qed.

Lemma range_nonempty n : 1 <= n -> range n <> [].
Proof.
  intros Hn E. apply (f_equal length) in E. rewrite length_range in E.
  simpl in E. lia.
Qed.

Lemma load_ok st b im :
  st_files st !! input_path = Some b -> decode b = Some im ->
  load st = (Ok (length (st_heap st)), grow st [im]).
Proof.
  intros Hf Hd. unfold load, Image_open.
  rewrite (bind_ok _ _ _ b st) by (unfold read_file; by rewrite Hf).
  by rewrite Hd.
Qed.

(** A run that finds a decodable logo and may write the output. *)
Lemma animate_ok st b im n :
  1 <= n ->
  st_files st !! input_path = Some b -> decode b = Some im ->
  st_writable st output_path = true ->
  st_encodes st message = true ->
  animate n st
  = (Ok tt,
     with_line
       (with_file (grow st (allocated im n)) output_path
          (gif_encode (animation (normalized im) n)))
       message).
Proof.
  intros Hn Hf Hd W Henc. unfold animate.
  rewrite (bind_ok _ _ _ _ _ (load_ok st b im Hf Hd)).
  destruct (normalize_normalized (grow st [im]) (length (st_heap st)) im)
    as (logo & st1 & Hnorm & Hlogo & Hst1).
  { simpl. by apply list_lookup_middle. }
  rewrite (bind_ok _ _ _ _ _ Hnorm).
  rewrite (bind_ok _ _ _ _ _ (generate_frames_ok logo _ n st1 Hlogo)).
  rewrite <- (length_range n), <- (length_map (frame (normalized im) n)).
  unfold mbind at 1, M_bind.
  rewrite encode_generated.
  2:{ intros E. apply (f_equal length) in E. rewrite length_map, length_range in E.
      simpl in E. lia. }
  replace (st_writable st1 output_path) with true by (by subst st1).
  subst st1. rewrite grow_grow, grow_grow. unfold print. simpl.
  by rewrite Henc.
Qed.

End WholeRun.

(** ** Facts about the Pillow operations *)

Section ImageFacts.
Context `{PillowCore}.

Lemma convert_mode im m : im_mode (convert im m) = m.
Proof.
  unfold convert. destruct (String.eqb_spec m (im_mode im)) as [->|_]; [done|].
  repeat (destruct (_ && _); [done|]). done.
Qed.

Lemma convert_size im m : im_size (convert im m) = im_size im.
Proof.
  unfold convert. destruct (String.eqb m (im_mode im)); [done|].
  repeat (destruct (_ && _); [done|]). done.
Qed.

Lemma normalized_mode im : im_mode (normalized im) = "RGBA".
Proof.
  unfold normalized. destruct (String.eqb_spec (im_mode im) "RGBA"); simpl; [done|].
  apply convert_mode.
Qed.

Lemma normalized_size im : im_size (normalized im) = im_size im.
Proof. unfold normalized. destruct (negb _); [apply convert_size|done]. Qed.

Lemma normalized_rgba im : im_mode im = "RGBA" -> normalized im = im.
Proof. intros E. unfold normalized. by rewrite E. Qed.

Lemma normalized_idem im : normalized (normalized im) = normalized im.
Proof. apply normalized_rgba, normalized_mode. Qed.

Lemma rgb_to_rgba_colours t px : take 3 (rgb_to_rgba t px) = take 3 px.
Proof. by destruct px as [|r [|g [|b [|? ?]]]]. Qed.

(** Promoting an RGB image keeps the three colour bands of every pixel. *)
Lemma normalized_rgb_colours im :
  im_mode im = "RGB" ->
  map_pixels (take 3) (im_data (normalized im)) = map_pixels (take 3) (im_data im).
Proof.
  intros E. unfold normalized, convert. rewrite E. simpl.
  unfold map_pixels. rewrite map_map. apply map_ext. intros row.
  rewrite map_map. apply map_ext. intros px. apply rgb_to_rgba_colours.
Qed.

Lemma transpose_mode im t : im_mode (transpose im t) = im_mode im.
Proof. by destruct t. Qed.

Lemma rotate_mode im a flt ex : im_mode (rotate im a flt ex) = im_mode im.
Proof.
  unfold rotate. repeat (case_match; try done); apply transpose_mode.
Qed.

(** Without [expand] the canvas keeps its size: the transposes by a right
    angle, which swap width and height, are only taken for a square. *)
Lemma rotate_size im a flt : im_size (rotate im a flt false) = im_size im.
Proof.
  unfold rotate.
  destruct (eqb _ (of_int 0)); [done|].
  destruct (eqb _ (of_int 180)); [done|].
  destruct (_ && _) eqn:E; [|done].
  apply andb_true_iff in E as [_ E]. simpl in E. apply Z.eqb_eq in E.
  unfold width, height in E.
  case_match; simpl; unfold width, height;
    destruct (im_size im) as [w h]; simpl in *; by subst.
Qed.

(** A zero angle, of either sign, takes the [copy] path. *)
Lemma rotate_zero im a flt ex : is_zero a = true -> rotate im (neg a) flt ex = im.
Proof.
  intros Hz. unfold rotate.
  rewrite (PyFloatFacts.rem_zero a (of_int 360)) by done. done.
Qed.

Lemma frame_angle_zero n : 1 <= n -> is_zero (frame_angle 0 n) = true.
Proof.
  intros Hn. unfold frame_angle. apply PyFloatFacts.mul_zero_finite.
  apply PyFloatFacts.div_int_finite; [lia|reflexivity|lia].
Qed.

Lemma frame_zero im n : 1 <= n -> frame im n 0 = im.
Proof. intros Hn. unfold frame. by apply rotate_zero, frame_angle_zero. Qed.

Lemma frame_mode im n i : im_mode (frame im n i) = im_mode im.
Proof. apply rotate_mode. Qed.

Lemma frame_size im n i : im_size (frame im n i) = im_size im.
Proof. apply rotate_size. Qed.

End ImageFacts.

(** ** The angles of the configured frame count are exact *)

Lemma angle_exactb_spec n i : angle_exactb n i = true -> angle_exact n i.
Proof.
  unfold angle_exactb, angle_exact. intros E.
  destruct (to_Q (frame_angle i n)) as [q|]; [|done].
  destruct (to_Q (neg (frame_angle i n))) as [q'|]; [|done].
  apply andb_true_iff in E as [E1 E2]. apply Qeq_bool_iff in E1, E2.
  by exists q, q'.
Qed.

Lemma angles_exact_36 : forallb (angle_exactb 36) (range 36) = true.
Proof. vm_compute. reflexivity. Qed.

Lemma angle_exact_num_frames i : 0 <= i < num_frames -> angle_exact num_frames i.
Proof.
  intros Hi. apply angle_exactb_spec.
  pose proof angles_exact_36 as Hall. rewrite forallb_forall in Hall.
  apply Hall. apply list_elem_of_In. unfold range. apply elem_of_seqZ.
  unfold num_frames in Hi. lia.
Qed.

(** More generally, for every frame count that divides 360. *)
Lemma angles_exact_divisors :
  forallb (fun n => negb (360 mod n =? 0) || forallb (angle_exactb n) (range n))
          (seqZ 1 360) = true.
Proof. vm_compute. reflexivity. Qed.

Lemma angle_exact_divisor n i :
  1 <= n -> (n | 360) -> 0 <= i < n -> angle_exact n i.
Proof.
  intros Hn Hdiv Hi. apply angle_exactb_spec.
  assert (n <= 360) by (apply Z.divide_pos_le; [lia|done]).
  pose proof angles_exact_divisors as Hall. rewrite forallb_forall in Hall.
  specialize (Hall n). rewrite <- list_elem_of_In, elem_of_seqZ in Hall.
  specialize (Hall ltac:(lia)).
  apply Z.mod_divide in Hdiv; [|lia]. rewrite Hdiv in Hall. simpl in Hall.
  rewrite forallb_forall in Hall. apply Hall.
  apply list_elem_of_In. unfold range. apply elem_of_seqZ. lia.
Qed.

(** ** Frame conditions: what a run can change *)

Section Frame.
Context `{PillowCore}.

Lemma extends_refl st : extends st st.
Proof. split; [done|]. exists []. by rewrite app_nil_r. Qed.

Lemma extends_trans st1 st2 st3 :
  extends st1 st2 -> extends st2 st3 -> extends st1 st3.
Proof.
  intros [Hf1 [l1 Hh1]] [Hf2 [l2 Hh2]]. split.
  - intros p Hp. by rewrite Hf2, Hf1.
  - exists (l1 ++ l2). by rewrite Hh2, Hh1, app_assoc.
Qed.

Lemma preserving_ret {A} (a : A) : preserving (mret a).
Proof. intros st. apply extends_refl. Qed.

Lemma preserving_raise {A} e : preserving (@raise A e).
Proof. intros st. apply extends_refl. Qed.

Lemma preserving_bind {A B} (m : M A) (f : A -> M B) :
  preserving m -> (forall a, preserving (f a)) -> preserving (m ≫= f).
Proof.
  intros Hm Hf st. unfold mbind, M_bind. specialize (Hm st).
  destruct (m st) as [[a|e] st']; simpl in *; [|done].
  eapply extends_trans; [exact Hm|apply Hf].
Qed.

Lemma preserving_alloc im : preserving (alloc im).
Proof. intros st. split; [done|]. by exists [im]. Qed.

Lemma preserving_deref r : preserving (deref r).
Proof. intros st. unfold deref. case_match; apply extends_refl. Qed.

Lemma preserving_read_file p : preserving (read_file p).
Proof. intros st. unfold read_file. case_match; apply extends_refl. Qed.

Lemma preserving_write_output b : preserving (write_file output_path b).
Proof.
  intros st. unfold write_file. case_match; [|apply extends_refl].
  split; simpl.
  - intros p Hp. by rewrite lookup_insert_ne.
  - exists []. by rewrite app_nil_r.
Qed.

Lemma preserving_print line : preserving (print line).
Proof.
  intros st. unfold print. case_match; [|apply extends_refl].
  split; [done|]. exists []. simpl. by rewrite app_nil_r.
Qed.

Lemma preserving_list_index {A} (xs : list A) i : preserving (list_index xs i).
Proof.
  unfold list_index. case_match; [apply preserving_ret|apply preserving_raise].
Qed.

Lemma preserving_int_truediv a b : preserving (int_truediv a b).
Proof.
  unfold int_truediv.
  repeat case_match; first [apply preserving_ret|apply preserving_raise].
Qed.

Lemma preserving_for_each {A S} (xs : list A) (body : A -> S -> M S) :
  (forall x s, preserving (body x s)) -> forall s, preserving (for_each xs body s).
Proof.
  intros Hb. induction xs as [|x xs IH]; intros s; simpl.
  - apply preserving_ret.
  - apply preserving_bind; [apply Hb|apply IH].
Qed.

Create HintDb frame.
#[local] Hint Resolve preserving_ret preserving_raise preserving_alloc
  preserving_deref preserving_read_file preserving_write_output
  preserving_print preserving_list_index preserving_int_truediv : frame.

Ltac frame :=
  repeat first
    [ apply preserving_bind; [|intros]
    | apply preserving_for_each; intros
    | progress eauto with frame
    | case_match ].

Lemma preserving_load : preserving load.
Proof. unfold load, Image_open. frame. Qed.

Lemma preserving_normalize logo : preserving (normalize logo).
Proof. unfold normalize, Image_mode, Image_convert. frame. Qed.

Lemma preserving_generate_frames logo n : preserving (generate_frames logo n).
Proof. unfold generate_frames, append_rotated, angle, Image_rotate. frame. Qed.

Lemma preserving_encode frames : preserving (encode frames).
Proof. unfold encode, Image_save, deref_all. frame. Qed.

Lemma preserving_rest logo n :
  preserving (logo' ← normalize logo;
              frames ← generate_frames logo' n;
              encode frames;; print message).
Proof.
  apply preserving_bind; [apply preserving_normalize|intros].
  apply preserving_bind; [apply preserving_generate_frames|intros].
  apply preserving_bind; [apply preserving_encode|intros].
  apply preserving_print.
Qed.

Lemma preserving_animate n : preserving (animate n).
Proof.
  unfold animate. apply preserving_bind; [apply preserving_load|intros].
  apply preserving_rest.
Qed.

Lemma paths_differ : input_path <> output_path.
Proof. discriminate. Qed.

End Frame.

(** A frame count that does not divide 360 need not give exact angles:
    360 / 7 is not a binary fraction, and the angle of frame 1 out of 7 is
    its rounding to binary64. *)
Lemma angle_rounded_7 : ~ angle_exact 7 1.
Proof.
  intros (q & q' & Hq & _ & Heq & _).
  vm_compute in Hq. injection Hq as <-. vm_compute in Heq. discriminate.
Qed.

(** * The properties of the script *)

Section Properties.
Context `{PillowCore}.

(** C1.  For every frame count [n >= 1], GenerateFrames returns exactly
    [n] frames, and frame 0 is a new image object whose mode, size and
    pixels are those of the image it was given (the normalized logo): the
    rotation by the angle 0 takes the copy path. *)
Theorem generate_frames_count_and_first (n : Z) (st : state) (logo : ref) (im : Image) :
  1 <= n -> st_heap st !! logo = Some im ->
  exists frames st',
    generate_frames logo n st = (Ok frames, st') /\
    Z.of_nat (length frames) = n /\
    exists first, frames !! 0%nat = Some first /\
      st_heap st' !! first = Some im /\ first <> logo.
Proof.
  intros Hn E. eexists _, _. split; [by apply generate_frames_ok|].
  split; [rewrite length_seq; lia|].
  destruct (lookup_generated st im n 0) as [Hr Hf]; [lia|].
  exists (length (st_heap st) + 0)%nat. split; [done|].
  change (Z.of_nat 0) with 0 in Hf. rewrite (frame_zero im n Hn) in Hf.
  split; [exact Hf|].
  apply lookup_lt_Some in E. lia.
Qed.

(** C2.  With the configured frame count, frame [i] is the logo rotated by
    the opposite of [angle i], and the binary64 number [angle i] is exactly
    the rational [i * 360 / num_frames]: the angles are the multiples of
    360 / num_frames, in the clockwise direction. *)
Theorem angles_evenly_spaced (st : state) (logo : ref) (im : Image) (i : nat) :
  st_heap st !! logo = Some im -> Z.of_nat i < num_frames ->
  exists frames st' f a,
    generate_frames logo num_frames st = (Ok frames, st') /\
    angle (Z.of_nat i) num_frames st = (Ok a, st) /\
    frames !! i = Some f /\
    st_heap st' !! f = Some (rotate im (neg a) BICUBIC false) /\
    exists q q', to_Q a = Some q /\ to_Q (neg a) = Some q' /\
      (q == inject_Z (Z.of_nat i) * 360 / inject_Z num_frames)%Q /\
      (q' == - (inject_Z (Z.of_nat i) * 360 / inject_Z num_frames))%Q.
Proof.
  intros E Hi.
  destruct (lookup_generated st im num_frames i Hi) as [Hr Hf].
  eexists _, _, _, _. split; [by apply generate_frames_ok|].
  split; [by apply angle_ok|]. split; [exact Hr|]. split; [exact Hf|].
  apply angle_exact_num_frames. lia.
Qed.

(** C4.  Every frame has the size of the image the frames are made from. *)
Theorem frames_keep_size (n : Z) (st : state) (logo : ref) (im : Image) :
  st_heap st !! logo = Some im ->
  exists frames st',
    generate_frames logo n st = (Ok frames, st') /\
    forall (i : nat) (f : ref), frames !! i = Some f ->
      exists fim, st_heap st' !! f = Some fim /\ im_size fim = im_size im.
Proof.
  intros E. eexists _, _. split; [by apply generate_frames_ok|].
  intros i f Hf. apply lookup_seq in Hf as [-> Hi].
  destruct (lookup_generated st im n i) as [_ Hl]; [lia|].
  eexists. split; [exact Hl|]. apply frame_size.
Qed.

(** C6.  Normalize passes an RGBA image through: it returns the same
    object and changes nothing.  Hence normalizing twice is normalizing
    once. *)
Theorem normalize_idempotent (st : state) (logo : ref) (im : Image) :
  st_heap st !! logo = Some im ->
  (im_mode im = "RGBA" -> normalize logo st = (Ok logo, st)) /\
  exists logo1 st1,
    normalize logo st = (Ok logo1, st1) /\
    normalize logo1 st1 = (Ok logo1, st1).
Proof.
  intros E. split.
  - intros Hm. rewrite (normalize_ok _ _ _ E). by rewrite Hm.
  - destruct (normalize_normalized st logo im E) as (logo' & st1 & Hn & Hl & _).
    exists logo', st1. split; [done|].
    rewrite (normalize_ok _ _ _ Hl). by rewrite normalized_mode.
Qed.

(** C7.  Frame [i] is the rotation of the logo itself by the angle of
    index [i]: it is a function of the logo, the frame count and [i], and
    the logo object still holds the same image after the loop. *)
Theorem frames_independent (n : Z) (st : state) (logo : ref) (im : Image) (i : nat) :
  st_heap st !! logo = Some im -> Z.of_nat i < n ->
  exists frames st' f,
    generate_frames logo n st = (Ok frames, st') /\
    frames !! i = Some f /\
    st_heap st' !! f
    = Some (rotate im (neg (mul (of_int (Z.of_nat i)) (div_int 360 n))) BICUBIC false) /\
    st_heap st' !! logo = Some im.
Proof.
  intros E Hi. destruct (lookup_generated st im n i Hi) as [Hr Hf].
  eexists _, _, _. split; [by apply generate_frames_ok|].
  split; [exact Hr|]. split; [exact Hf|]. by apply lookup_grow.
Qed.

(** C8.  When the logo is missing or cannot be decoded, the run ends with
    the error of the load step and the state it started in: no file has
    been created or changed. *)
Theorem load_failure_writes_nothing (n : Z) (st : state) :
  (st_files st !! input_path = None ->
     animate n st = (Raise FileNotFoundError, st)) /\
  (forall b, st_files st !! input_path = Some b -> decode b = None ->
     animate n st = (Raise UnidentifiedImageError, st)).
Proof.
  split.
  - intros Hf. unfold animate. apply bind_raise.
    unfold load, Image_open. apply bind_raise. unfold read_file. by rewrite Hf.
  - intros b Hf Hd. unfold animate. apply bind_raise.
    unfold load, Image_open.
    rewrite (bind_ok _ _ _ b st) by (unfold read_file; by rewrite Hf).
    by rewrite Hd.
Qed.

(** C9.  For [n >= 1] the list of frames is not empty: [frames[0]] is
    defined and [frames[0]] followed by [frames[1:]] is the whole list.
    For [n = 0] the list is empty, and a run that loaded its logo ends in
    IndexError with the files and the output as they were. *)
Theorem first_frame_access (n : Z) (st : state) (logo : ref) (im : Image) :
  st_heap st !! logo = Some im ->
  (1 <= n ->
     exists frames st' first,
       generate_frames logo n st = (Ok frames, st') /\
       frames <> [] /\
       list_index frames 0 st' = (Ok first, st') /\
       first :: list_slice_from frames 1 = frames) /\
  (generate_frames logo 0 st = (Ok [], st) /\
   encode [] st = (Raise IndexError, st) /\
   forall st0 b im0,
     st_files st0 !! input_path = Some b -> decode b = Some im0 ->
     exists st', animate 0 st0 = (Raise IndexError, st') /\
       st_files st' = st_files st0 /\ st_stdout st' = st_stdout st0).
Proof.
  intros E. split; [intros Hn|split; [|split]].
  - rewrite (generate_frames_ok logo im n st E).
    destruct (Z.to_nat n) as [|k] eqn:Ek; [lia|].
    eexists _, _, _. split; [done|]. simpl. done.
  - rewrite (generate_frames_ok logo im 0 st E). simpl. by rewrite grow_nil.
  - reflexivity.
  - intros st0 b im0 Hf Hd. unfold animate.
    rewrite (bind_ok _ _ _ _ _ (load_ok st0 b im0 Hf Hd)).
    destruct (normalize_normalized (grow st0 [im0]) (length (st_heap st0)) im0)
      as (logo' & st1 & Hnorm & Hlogo & Hst1).
    { simpl. by apply list_lookup_middle. }
    rewrite (bind_ok _ _ _ _ _ Hnorm).
    rewrite (bind_ok _ _ _ _ _ (generate_frames_ok logo' _ 0 st1 Hlogo)).
    eexists. split; [reflexivity|]. subst st1. done.
Qed.

(** C10.  The two paths differ, and whatever the outcome of the run the
    file at the input path has the contents it had, every image object
    that existed holds the image it held, and the object made by the load
    step still holds the decoded logo. *)
Theorem input_untouched (n : Z) (st : state) :
  input_path <> output_path /\
  st_files (snd (animate n st)) !! input_path = st_files st !! input_path /\
  (forall r im, st_heap st !! r = Some im ->
     st_heap (snd (animate n st)) !! r = Some im) /\
  (forall b im, st_files st !! input_path = Some b -> decode b = Some im ->
     st_heap (snd (animate n st)) !! length (st_heap st) = Some im).
Proof.
  split; [apply paths_differ|].
  destruct (preserving_animate n st) as [Hfiles [ims Hheap]].
  split; [apply Hfiles, paths_differ|]. split.
  - intros r im E. rewrite Hheap. by apply lookup_app_l_Some.
  - intros b im Hf Hd. unfold animate.
    rewrite (bind_ok _ _ _ _ _ (load_ok st b im Hf Hd)).
    destruct (preserving_rest (length (st_heap st)) n (grow st [im])) as [_ [l Hl]].
    rewrite Hl. simpl. apply lookup_app_l_Some. by apply list_lookup_middle.
Qed.

End Properties.

(** * The properties on the small instance *)

(** Four frames of the RGBA logo. *)
Lemma generate_frames_count_and_first_witness :
  (1 <= 4 /\ st_heap rgba_state !! 0%nat = Some rgba_image) /\
  exists frames st',
    generate_frames (H:=sample_core) 0%nat 4 rgba_state = (Ok frames, st') /\
    Z.of_nat (length frames) = 4 /\
    exists first, frames !! 0%nat = Some first /\
      st_heap st' !! first = Some rgba_image /\ first <> 0%nat.
Proof.
  split; [split; [lia|reflexivity]|].
  apply (@generate_frames_count_and_first sample_core 4 rgba_state 0%nat rgba_image);
    [lia|reflexivity].
Defined.

(** Frame 3 of the 36: thirty degrees clockwise. *)
Lemma angles_evenly_spaced_witness :
  (st_heap rgba_state !! 0%nat = Some rgba_image /\ Z.of_nat 3 < num_frames) /\
  exists frames st' f a,
    generate_frames (H:=sample_core) 0%nat num_frames rgba_state = (Ok frames, st') /\
    angle (Z.of_nat 3) num_frames rgba_state = (Ok a, rgba_state) /\
    frames !! 3%nat = Some f /\
    st_heap st' !! f = Some (rotate (H:=sample_core) rgba_image (neg a) BICUBIC false) /\
    exists q q', to_Q a = Some q /\ to_Q (neg a) = Some q' /\
      (q == inject_Z (Z.of_nat 3) * 360 / inject_Z num_frames)%Q /\
      (q' == - (inject_Z (Z.of_nat 3) * 360 / inject_Z num_frames))%Q.
Proof.
  split; [split; reflexivity|].
  apply (@angles_evenly_spaced sample_core rgba_state 0%nat rgba_image 3);
    reflexivity.
Defined.

Lemma frames_keep_size_witness :
  st_heap rgba_state !! 0%nat = Some rgba_image /\
  exists frames st',
    generate_frames (H:=sample_core) 0%nat 4 rgba_state = (Ok frames, st') /\
    forall (i : nat) (f : ref), frames !! i = Some f ->
      exists fim, st_heap st' !! f = Some fim /\ im_size fim = (2, 2).
Proof.
  split; [reflexivity|].
  apply (@frames_keep_size sample_core 4 rgba_state 0%nat rgba_image). reflexivity.
Defined.

Lemma normalize_idempotent_witness :
  st_heap rgba_state !! 0%nat = Some rgba_image /\
  (im_mode rgba_image = "RGBA" ->
     normalize (H:=sample_core) 0%nat rgba_state = (Ok 0%nat, rgba_state)) /\
  exists logo1 st1,
    normalize (H:=sample_core) 0%nat rgba_state = (Ok logo1, st1) /\
    normalize (H:=sample_core) logo1 st1 = (Ok logo1, st1).
Proof.
  split; [reflexivity|].
  apply (@normalize_idempotent sample_core rgba_state 0%nat rgba_image). reflexivity.
Defined.

Lemma frames_independent_witness :
  (st_heap rgba_state !! 0%nat = Some rgba_image /\ Z.of_nat 2 < 4) /\
  exists frames st' f,
    generate_frames (H:=sample_core) 0%nat 4 rgba_state = (Ok frames, st') /\
    frames !! 2%nat = Some f /\
    st_heap st' !! f
    = Some (rotate (H:=sample_core) rgba_image
              (neg (mul (of_int (Z.of_nat 2)) (div_int 360 4))) BICUBIC false) /\
    st_heap st' !! 0%nat = Some rgba_image.
Proof.
  split; [split; reflexivity|].
  apply (@frames_independent sample_core 4 rgba_state 0%nat rgba_image 2);
    reflexivity.
Defined.

(** No logo, and a logo that does not decode. *)
Lemma load_failure_writes_nothing_witness :
  (st_files empty_state !! input_path = None /\
   main (H:=sample_core) empty_state = (Raise FileNotFoundError, empty_state)) /\
  (st_files corrupt_state !! input_path = Some [] /\
   decode (PillowCore:=sample_core) [] = None /\
   main (H:=sample_core) corrupt_state = (Raise UnidentifiedImageError, corrupt_state)).
Proof.
  split.
  - split; [reflexivity|].
    apply (proj1 (@load_failure_writes_nothing sample_core num_frames empty_state)).
    reflexivity.
  - split; [reflexivity|]. split; [reflexivity|].
    apply (proj2 (@load_failure_writes_nothing sample_core num_frames corrupt_state) []);
      reflexivity.
Defined.

Lemma first_frame_access_witness :
  st_heap rgba_state !! 0%nat = Some rgba_image /\
  (exists frames st' first,
     generate_frames (H:=sample_core) 0%nat 1 rgba_state = (Ok frames, st') /\
     frames <> [] /\
     list_index frames 0 st' = (Ok first, st') /\
     first :: list_slice_from frames 1 = frames) /\
  (exists st', animate (H:=sample_core) 0 sample_state = (Raise IndexError, st') /\
     st_files st' = st_files sample_state /\ st_stdout st' = st_stdout sample_state).
Proof.
  split; [reflexivity|].
  destruct (@first_frame_access sample_core 1 rgba_state 0%nat rgba_image eq_refl)
    as [Hpos [_ [_ Hzero]]].
  split.
  - apply Hpos. lia.
  - apply (Hzero sample_state [Byte.x89] sample_image); reflexivity.
Defined.

Lemma input_untouched_witness :
  input_path <> output_path /\
  st_files (snd (main (H:=sample_core) sample_state)) !! input_path
  = st_files sample_state !! input_path /\
  (forall r im, st_heap sample_state !! r = Some im ->
     st_heap (snd (main (H:=sample_core) sample_state)) !! r = Some im) /\
  (forall b im, st_files sample_state !! input_path = Some b ->
     decode (PillowCore:=sample_core) b = Some im ->
     st_heap (snd (main (H:=sample_core) sample_state)) !! length (st_heap sample_state)
     = Some im).
Proof. exact (@input_untouched sample_core num_frames sample_state). Defined.

(** * More about the run *)

Section Outcome.
Context `{PillowCore}.

Lemma range_nil n : n < 1 -> range n = [].
Proof. intros Hn. unfold range. apply seqZ_nil. lia. Qed.

Lemma allocated_eq im n :
  allocated im n
  = ([im] ++ (if negb (String.eqb (im_mode im) "RGBA") then [convert im "RGBA"] else []))
    ++ map (frame (normalized im) n) (range n).
Proof. unfold allocated. by rewrite <- app_assoc. Qed.

(** The run, case by case: no logo, a logo that does not decode, no frame
    to save, an output path that cannot be opened, a message that cannot
    be printed, and success. *)
Lemma animate_cases n st :
  animate n st =
  match st_files st !! input_path with
  | None => (Raise FileNotFoundError, st)
  | Some b =>
      match decode b with
      | None => (Raise UnidentifiedImageError, st)
      | Some im =>
          if n <? 1 then (Raise IndexError, grow st (allocated im n))
          else if st_writable st output_path then
            if st_encodes st message then
              (Ok tt,
               with_line
                 (with_file (grow st (allocated im n)) output_path
                    (gif_encode (animation (normalized im) n)))
                 message)
            else
              (Raise UnicodeEncodeError,
               with_file (grow st (allocated im n)) output_path
                 (gif_encode (animation (normalized im) n)))
          else (Raise (exn_of_write_error (st_write_error st output_path)),
                grow st (allocated im n))
      end
  end.
Proof.
  destruct (st_files st !! input_path) as [b|] eqn:Hf.
  2:{ unfold animate. apply bind_raise. unfold load, Image_open.
      apply bind_raise. unfold read_file. by rewrite Hf. }
  destruct (decode b) as [im|] eqn:Hd.
  2:{ unfold animate. apply bind_raise. unfold load, Image_open.
      rewrite (bind_ok _ _ _ b st) by (unfold read_file; by rewrite Hf).
      by rewrite Hd. }
  unfold animate.
  rewrite (bind_ok _ _ _ _ _ (load_ok st b im Hf Hd)).
  destruct (normalize_normalized (grow st [im]) (length (st_heap st)) im)
    as (logo & st1 & Hnorm & Hlogo & Hst1).
  { simpl. by apply list_lookup_middle. }
  rewrite (bind_ok _ _ _ _ _ Hnorm).
  rewrite (bind_ok _ _ _ _ _ (generate_frames_ok logo _ n st1 Hlogo)).
  rewrite allocated_eq, <- 2!grow_grow, <- Hst1.
  destruct (Z.ltb_spec n 1) as [Hn|Hn].
  - rewrite (range_nil n Hn). replace (Z.to_nat n) with 0%nat by lia.
    simpl. by rewrite grow_nil.
  - rewrite <- (length_range n), <- (length_map (frame (normalized im) n)).
    unfold mbind at 1, M_bind.
    rewrite encode_generated.
    2:{ intros E. apply (f_equal length) in E.
        rewrite length_map, length_range in E. simpl in E. lia. }
    replace (st_writable st1 output_path) with (st_writable st output_path)
      by (by subst st1).
    replace (st_write_error st1 output_path) with (st_write_error st output_path)
      by (by subst st1).
    destruct (st_writable st output_path); [|done].
    unfold print. simpl.
    replace (st_encodes st1 message) with (st_encodes st message)
      by (by subst st1).
    by destruct (st_encodes st message).
Qed.

(** The files a run leaves. *)
Lemma animate_files n st :
  st_files (snd (animate n st)) =
  match st_files st !! input_path with
  | None => st_files st
  | Some b =>
      match decode b with
      | None => st_files st
      | Some im =>
          if (1 <=? n) && st_writable st output_path then
            <[output_path := gif_encode (animation (normalized im) n)]> (st_files st)
          else st_files st
      end
  end.
Proof.
  rewrite animate_cases.
  destruct (st_files st !! input_path) as [b|]; [|done].
  destruct (decode b) as [im|]; [|done].
  destruct (Z.ltb_spec n 1), (Z.leb_spec 1 n); try lia; [done|].
  by destruct (st_writable st output_path), (st_encodes st message).
Qed.

(** X2.  Whatever the frame count, also 0 or a negative number, a run
    never raises ZeroDivisionError: the division by the frame count is
    evaluated inside the loop only, which has no iteration then. *)
Theorem never_divides_by_zero (n : Z) (st : state) :
  fst (animate n st) <> Raise ZeroDivisionError.
Proof.
  rewrite animate_cases. intros E.
  destruct (st_files st !! input_path) as [b|]; [|done].
  destruct (decode b) as [im|]; [|done].
  destruct (Z.ltb_spec n 1) as [|Hn]; [done|].
  destruct (st_writable st output_path) eqn:W.
  - by destruct (st_encodes st message).
  - (* the error of the system is that of opening the file, which the
       run reaches only after the loop has ended without an error *)
    simpl in E. by destruct (st_write_error st output_path).
Qed.

(** X5.  Running the script on the file system a run has left changes no
    file: the logo is still there, and the output is written with the
    same contents. *)
Theorem rerun_changes_no_file (n : Z) (st st2 : state) :
  st_files st2 = st_files (snd (animate n st)) ->
  st_writable st2 output_path = st_writable st output_path ->
  st_files (snd (animate n st2)) = st_files st2.
Proof.
  intros Hfiles Hw.
  assert (st_files st2 !! input_path = st_files st !! input_path) as Hin.
  { rewrite Hfiles, animate_files. repeat case_match; try done.
    rewrite lookup_insert_ne; [done|]. apply not_eq_sym, paths_differ. }
  rewrite (animate_files n st2), Hin, Hw, Hfiles, (animate_files n st).
  repeat case_match; try done. apply insert_insert_eq.
Qed.

End Outcome.

Section Frames.
Context `{PillowCore}.

(** X6.  The bytes written to the output path are determined by the
    contents of the logo file and the frame count: two successful runs on
    states that agree on the logo file write the same output, whatever
    else the states hold. *)
Theorem output_depends_on_logo_only (n : Z) (st1 st2 : state) :
  st_files st1 !! input_path = st_files st2 !! input_path ->
  fst (animate n st1) = Ok tt -> fst (animate n st2) = Ok tt ->
  st_files (snd (animate n st1)) !! output_path
  = st_files (snd (animate n st2)) !! output_path /\
  is_Some (st_files (snd (animate n st1)) !! output_path).
Proof.
  intros Hin. rewrite !animate_cases, <- Hin.
  destruct (st_files st1 !! input_path) as [b|]; [|done].
  destruct (decode b) as [im|]; [|done].
  destruct (n <? 1); [done|].
  destruct (st_writable st1 output_path), (st_writable st2 output_path); try done.
  destruct (st_encodes st1 message), (st_encodes st2 message); try done.
  intros _ _. simpl. rewrite !lookup_insert_eq. split; [done|by eexists].
Qed.

(** X7.  The frames are objects of their own: the references the loop
    returns are pairwise different, and each names an object that did not
    exist before the loop, so none is the logo. *)
Theorem frames_are_new_objects (n : Z) (st : state) (logo : ref) (im : Image) :
  st_heap st !! logo = Some im ->
  exists frames st',
    generate_frames logo n st = (Ok frames, st') /\
    NoDup frames /\
    forall f, f ∈ frames ->
      st_heap st !! f = None /\ is_Some (st_heap st' !! f) /\ f <> logo.
Proof.
  intros E. eexists _, _. split; [by apply generate_frames_ok|].
  split; [apply NoDup_seq|].
  intros f Hf. apply elem_of_seq in Hf.
  pose proof (lookup_lt_Some _ _ _ E) as Hlogo.
  split; [apply lookup_ge_None; lia|]. split; [|lia].
  apply lookup_lt_is_Some. simpl.
  rewrite length_app, length_map, length_range. lia.
Qed.

(** X8.  In a run that ends normally, the animation written has the
    normalized logo as its first frame, and all its frames are RGBA images
    of the size of the logo. *)
Theorem saved_frames_uniform (n : Z) (st : state) (b : list Byte.byte) (im : Image) :
  st_files st !! input_path = Some b -> decode b = Some im ->
  fst (animate n st) = Ok tt ->
  exists anim,
    st_files (snd (animate n st)) !! output_path = Some (gif_encode anim) /\
    anim_frames anim !! 0%nat = Some (normalized im) /\
    (im_mode im = "RGBA" -> anim_frames anim !! 0%nat = Some im) /\
    forall f, f ∈ anim_frames anim ->
      im_mode f = "RGBA" /\ im_size f = im_size im.
Proof.
  intros Hf Hd. rewrite animate_cases, Hf, Hd.
  destruct (Z.ltb_spec n 1) as [|Hn]; [done|].
  destruct (st_writable st output_path); [|done].
  destruct (st_encodes st message); [|done]. intros _.
  exists (animation (normalized im) n). simpl.
  split; [apply lookup_insert_eq|].
  assert (map (frame (normalized im) n) (range n) !! 0%nat = Some (normalized im)) as H0.
  { rewrite list_lookup_fmap, lookup_range by lia. simpl.
    by rewrite frame_zero. }
  split; [done|]. split; [intros Hm; by rewrite H0, normalized_rgba|].
  intros f Hin. apply list_elem_of_fmap in Hin as (i & -> & _).
  split; [by rewrite frame_mode, normalized_mode|].
  by rewrite frame_size, normalized_size.
Qed.

Lemma half_turns_exact :
  forallb (fun n => negb (360 mod n =? 0) || negb (n mod 2 =? 0) || half_turn_exactb n)
          (seqZ 1 360) = true.
Proof. vm_compute. reflexivity. Qed.

Lemma quarter_turns_exact :
  forallb (fun n => negb (360 mod n =? 0) || negb (n mod 4 =? 0) || quarter_turns_exactb n)
          (seqZ 1 360) = true.
Proof. vm_compute. reflexivity. Qed.

Lemma divisor_in_range n : 1 <= n -> (n | 360) -> In n (seqZ 1 360).
Proof.
  intros Hn Hdiv. apply list_elem_of_In, elem_of_seqZ.
  assert (n <= 360) by (apply Z.divide_pos_le; [lia|done]). lia.
Qed.

Lemma half_turn_angle n :
  1 <= n -> (n | 360) -> (2 | n) -> reduced_angle (n / 2) n = of_int 180.
Proof.
  intros Hn Hdiv H2. pose proof half_turns_exact as Hall.
  rewrite forallb_forall in Hall. specialize (Hall n (divisor_in_range n Hn Hdiv)).
  apply Z.mod_divide in Hdiv, H2; [|lia..]. rewrite Hdiv, H2 in Hall.
  simpl in Hall. unfold half_turn_exactb in Hall. by apply bool_decide_eq_true in Hall.
Qed.

Lemma quarter_turn_angles n :
  1 <= n -> (n | 360) -> (4 | n) ->
  reduced_angle (n / 4) n = of_int 270 /\ reduced_angle (3 * (n / 4)) n = of_int 90.
Proof.
  intros Hn Hdiv H4. pose proof quarter_turns_exact as Hall.
  rewrite forallb_forall in Hall. specialize (Hall n (divisor_in_range n Hn Hdiv)).
  apply Z.mod_divide in Hdiv, H4; [|lia..]. rewrite Hdiv, H4 in Hall.
  simpl in Hall. unfold quarter_turns_exactb in Hall.
  apply andb_true_iff in Hall as [Ha Hb].
  by apply bool_decide_eq_true in Ha, Hb.
Qed.

Lemma frame_reduced im n i :
  frame im n i
  = let a := reduced_angle i n in
    if eqb a (of_int 0) then copy im
    else if eqb a (of_int 180) then transpose im ROTATE_180
    else if (eqb a (of_int 90) || eqb a (of_int 270))
            && (false || (width im =? height im)) then
      transpose im (if eqb a (of_int 90) then ROTATE_90 else ROTATE_270)
    else transform im (im_size im) a BICUBIC.
Proof. reflexivity. Qed.

(** X9.  For a frame count that divides 360, the frames at the right
    angles do not go through resampling.  For an even count the middle
    frame is the logo turned upside down by [transpose]; for a multiple of
    four and a square logo the frames at one and three quarters are the
    transposes by 270 and by 90 degrees; for a logo that is not square
    those two frames are resampled into a canvas of the size of the logo.
    With the 36 frames of the script these are the frames 18, 9 and 27. *)
Theorem right_angle_frames (n : Z) (im : Image) :
  1 <= n -> (n | 360) ->
  ((2 | n) -> frame im n (n / 2) = transpose im ROTATE_180) /\
  ((4 | n) -> width im = height im ->
     frame im n (n / 4) = transpose im ROTATE_270 /\
     frame im n (3 * (n / 4)) = transpose im ROTATE_90) /\
  ((4 | n) -> width im <> height im ->
     frame im n (n / 4) = transform im (im_size im) (of_int 270) BICUBIC /\
     frame im n (3 * (n / 4)) = transform im (im_size im) (of_int 90) BICUBIC).
Proof.
  intros Hn Hdiv. split; [|split].
  - intros H2. rewrite frame_reduced, (half_turn_angle n Hn Hdiv H2). reflexivity.
  - intros H4 Hsq. destruct (quarter_turn_angles n Hn Hdiv H4) as [Ha Hb].
    apply Z.eqb_eq in Hsq.
    split; rewrite frame_reduced; [rewrite Ha|rewrite Hb]; simpl;
      by rewrite Hsq.
  - intros H4 Hsq. destruct (quarter_turn_angles n Hn Hdiv H4) as [Ha Hb].
    apply Z.eqb_neq in Hsq.
    split; rewrite frame_reduced; [rewrite Ha|rewrite Hb]; simpl;
      by rewrite Hsq.
Qed.

End Frames.

(** * The same on the small instance *)

Lemma never_divides_by_zero_witness :
  fst (animate (H:=sample_core) 0 sample_state) <> Raise ZeroDivisionError.
Proof. exact (@never_divides_by_zero sample_core 0 sample_state). Defined.

(** The script run a second time on what the first run left. *)
Lemma rerun_changes_no_file_witness :
  st_files (snd (main (H:=sample_core) (snd (main (H:=sample_core) sample_state))))
  = st_files (snd (main (H:=sample_core) sample_state)).
Proof.
  apply (@rerun_changes_no_file sample_core num_frames sample_state
           (snd (main (H:=sample_core) sample_state))); reflexivity.
Defined.

(** Two states with the same logo file and different heaps. *)
Lemma output_depends_on_logo_only_witness :
  st_files (snd (main (H:=sample_core) sample_state)) !! output_path
  = st_files (snd (main (H:=sample_core) loaded_state)) !! output_path /\
  is_Some (st_files (snd (main (H:=sample_core) sample_state)) !! output_path).
Proof.
  apply (@output_depends_on_logo_only sample_core num_frames sample_state loaded_state);
    reflexivity.
Defined.

Lemma frames_are_new_objects_witness :
  st_heap rgba_state !! 0%nat = Some rgba_image /\
  exists frames st',
    generate_frames (H:=sample_core) 0%nat 4 rgba_state = (Ok frames, st') /\
    NoDup frames /\
    forall f, f ∈ frames ->
      st_heap rgba_state !! f = None /\ is_Some (st_heap st' !! f) /\ f <> 0%nat.
Proof.
  split; [reflexivity|].
  apply (@frames_are_new_objects sample_core 4 rgba_state 0%nat rgba_image).
  reflexivity.
Defined.

Lemma saved_frames_uniform_witness :
  exists anim,
    st_files (snd (main (H:=sample_core) sample_state)) !! output_path
    = Some (gif_encode (PillowCore:=sample_core) anim) /\
    anim_frames anim !! 0%nat = Some (normalized (H:=sample_core) sample_image) /\
    (im_mode sample_image = "RGBA" -> anim_frames anim !! 0%nat = Some sample_image) /\
    forall f, f ∈ anim_frames anim ->
      im_mode f = "RGBA" /\ im_size f = im_size sample_image.
Proof.
  apply (@saved_frames_uniform sample_core num_frames sample_state [Byte.x89] sample_image);
    reflexivity.
Defined.

(** The frames 18, 9 and 27 of the 36, for the square sample logo. *)
Lemma right_angle_frames_witness :
  frame (H:=sample_core) rgba_image num_frames 18 = transpose rgba_image ROTATE_180 /\
  frame (H:=sample_core) rgba_image num_frames 9 = transpose rgba_image ROTATE_270 /\
  frame (H:=sample_core) rgba_image num_frames 27 = transpose rgba_image ROTATE_90.
Proof.
  assert (1 <= num_frames) as Hn by (unfold num_frames; lia).
  assert ((num_frames | 360)) as Hdiv by (exists 10; reflexivity).
  destruct (@right_angle_frames sample_core num_frames rgba_image Hn Hdiv)
    as [H2 [H4 _]].
  split; [apply H2; exists 18; reflexivity|].
  apply H4; [exists 9; reflexivity|reflexivity].
Defined.

(** * What the GIF writer keeps *)

Section Coalesce.
Context `{PillowCore}.







End Coalesce.

Section Written.
Context `{GifReader}.




End Written.



(** * What normalizing does to the pixels *)

Section Bands.
Context `{PillowCore}.









(** X4.  The message is printed after the output file has been written:
    a run that ends normally has printed the message, once, and the file
    is there; a run that raises has printed nothing. *)
Theorem message_follows_output (n : Z) (st : state) :
  (fst (animate n st) = Ok tt ->
     st_stdout (snd (animate n st)) = st_stdout st ++ [message] /\
     exists anim, st_files (snd (animate n st)) !! output_path = Some (gif_encode anim)) /\
  (forall e, fst (animate n st) = Raise e ->
     st_stdout (snd (animate n st)) = st_stdout st).
Proof.
  rewrite animate_cases. split.
  - intros E. repeat case_match; simpl in E; try done.
    simpl. split; [done|]. eexists. apply lookup_insert_eq.
  - intros e E. repeat case_match; simpl in E; done.
Qed.

End Bands.



Lemma message_follows_output_witness :
  (fst (main (H:=sample_core) sample_state) = Ok tt ->
     st_stdout (snd (main (H:=sample_core) sample_state))
     = st_stdout sample_state ++ [message] /\
     exists anim,
       st_files (snd (main (H:=sample_core) sample_state)) !! output_path
       = Some (gif_encode (PillowCore:=sample_core) anim)) /\
  (forall e, fst (main (H:=sample_core) sample_state) = Raise e ->
     st_stdout (snd (main (H:=sample_core) sample_state)) = st_stdout sample_state).
Proof. exact (@message_follows_output sample_core num_frames sample_state). Defined.
